(** * core-js-101, [src/06-objects-tasks.js]

    A shallow embedding of the object tasks: the CSS selector builder
    [cssSelectorBuilder] with its shared, mutable facade object, and the
    JSON helpers [getJSON] / [fromJSON] together with [Rectangle].

    JavaScript objects are references.  The builder's methods either write
    through [this] or write to a shallow copy [{ ...this }], and which of the
    two they do is what several properties below are about, so selector
    objects live in a store and the methods are computations over it. *)

From Stdlib Require Import ZArith String Ascii List Bool Lia DecimalString.
From Stdlib Require DecimalNat.
From stdpp Require Import base list strings.

Local Open Scope string_scope.
Local Open Scope Z_scope.

(** ** The store and the computations over it *)

(** The data properties of a selector object.  The function-valued
    properties ([element], [id], ..., [getErrOrder]) and the array [order]
    are never assigned to, and [{ ...this }] copies them along, so every
    selector object carries the same ones: they are the definitions below and
    not fields. *)
Record Selector : Type := mkSelector {
  res    : string;
  isEl   : bool;
  isId   : bool;
  isPsEl : bool;
  index  : Z
}.

Definition set_res (v : string) (o : Selector) : Selector :=
  mkSelector v (isEl o) (isId o) (isPsEl o) (index o).
Definition set_isEl (v : bool) (o : Selector) : Selector :=
  mkSelector (res o) v (isId o) (isPsEl o) (index o).
Definition set_isId (v : bool) (o : Selector) : Selector :=
  mkSelector (res o) (isEl o) v (isPsEl o) (index o).
Definition set_isPsEl (v : bool) (o : Selector) : Selector :=
  mkSelector (res o) (isEl o) (isId o) v (index o).
Definition set_index (v : Z) (o : Selector) : Selector :=
  mkSelector (res o) (isEl o) (isId o) (isPsEl o) v.

(** A reference is a position in the store; a fresh object is put at the end. *)
Abbreviation loc := nat (only parsing).
Abbreviation store := (list Selector) (only parsing).

(** What a [throw] carries: [new Error(message)], or the [TypeError] the
    runtime raises when a property is read from something that is no object
    (here: a reference outside the store). *)
Inductive exn : Type :=
| Error (message : string)
| TypeError.

Inductive outcome (A : Type) : Type :=
| Ret (a : A)
| Throw (e : exn).
Arguments Ret {A} a.
Arguments Throw {A} e.

(** A computation returns or throws, and in both cases leaves a store: what
    was written before a [throw] stays written. *)
Definition M (A : Type) : Type := store -> outcome A * store.

Definition ret {A} (a : A) : M A := fun h => (Ret a, h).
Definition throw {A} (e : exn) : M A := fun h => (Throw e, h).
Definition bind {A B} (m : M A) (k : A -> M B) : M B :=
  fun h => match m h with
           | (Ret a, h') => k a h'
           | (Throw e, h') => (Throw e, h')
           end.

Declare Scope js_scope.
Delimit Scope js_scope with js.
Notation "x <- m ;; k" := (bind m (fun x => k))
  (at level 100, m at next level, right associativity) : js_scope.
Notation "m ;; k" := (bind m (fun _ => k))
  (at level 100, right associativity) : js_scope.
Local Open Scope js_scope.

(** [this.f] for the whole record, [this.f = v], and [{ ...o }]. *)
Definition load (l : loc) : M Selector :=
  fun h => match h !! l with
           | Some o => (Ret o, h)
           | None => (Throw TypeError, h)
           end.
Definition modify (l : loc) (f : Selector -> Selector) : M unit :=
  fun h => match h !! l with
           | Some o => (Ret tt, <[l := f o]> h)
           | None => (Throw TypeError, h)
           end.
Definition alloc (o : Selector) : M loc :=
  fun h => (Ret (length h), (h ++ [o])%list).

(** [Array.prototype.indexOf] on an array of strings: the first position
    holding [x], or -1. *)
Fixpoint indexOf (a : list string) (x : string) : Z :=
  match a with
  | [] => -1
  | y :: a' =>
      if String.eqb y x then 0
      else let i := indexOf a' x in if i <? 0 then -1 else i + 1
  end.

(** ** The builder *)

Module cssSelectorBuilder.

Definition order : list string :=
  ["element"; "id"; "class"; "attribute"; "pseudo-class"; "pseudo-element"].

Definition getErr {A} : M A :=
  throw (Error "Element, id and pseudo-element should not occur more then one time inside the selector").

Definition getErrOrder {A} : M A :=
  throw (Error "Selector parts should be arranged in the following order: element, id, class, attribute, pseudo-class, pseudo-element").

Definition element (this : loc) (value : string) : M loc :=
  t <- load this ;;
  (if isEl t then getErr else ret tt) ;;
  cThis <- alloc t ;;
  modify cThis (set_isEl true) ;;
  modify cThis (fun c => set_res (res c +:+ value) c) ;;
  c <- load cThis ;;
  (if index c >? indexOf order "element" then getErrOrder
   else modify cThis (set_index (indexOf order "element"))) ;;
  ret cThis.

Definition id (this : loc) (value : string) : M loc :=
  t <- load this ;;
  (if isId t then getErr else ret tt) ;;
  cThis <- alloc t ;;
  modify cThis (set_isId true) ;;
  modify cThis (fun c => set_res (res c +:+ "#" +:+ value) c) ;;
  c <- load cThis ;;
  (if index c >? indexOf order "id" then getErrOrder
   else modify cThis (set_index (indexOf order "id"))) ;;
  ret cThis.

Definition class (this : loc) (value : string) : M loc :=
  t <- load this ;;
  (if index t >? indexOf order "class" then getErrOrder
   else modify this (set_index (indexOf order "class"))) ;;
  modify this (fun c => set_res (res c +:+ "." +:+ value) c) ;;
  ret this.

Definition attr (this : loc) (value : string) : M loc :=
  t <- load this ;;
  (if index t >? indexOf order "attribute" then getErrOrder
   else modify this (set_index (indexOf order "attribute"))) ;;
  modify this (fun c => set_res (res c +:+ "[" +:+ value +:+ "]") c) ;;
  ret this.

Definition pseudoClass (this : loc) (value : string) : M loc :=
  t <- load this ;;
  (if index t >? indexOf order "pseudo-class" then getErrOrder
   else modify this (set_index (indexOf order "pseudo-class"))) ;;
  modify this (fun c => set_res (res c +:+ ":" +:+ value) c) ;;
  ret this.

Definition pseudoElement (this : loc) (value : string) : M loc :=
  t <- load this ;;
  (if isPsEl t then getErr else ret tt) ;;
  cThis <- alloc t ;;
  modify cThis (set_isPsEl true) ;;
  modify cThis (fun c => set_res (res c +:+ "::" +:+ value) c) ;;
  c <- load cThis ;;
  (if index c >? indexOf order "pseudo-element" then getErrOrder
   else modify cThis (set_index (indexOf order "pseudo-element"))) ;;
  ret cThis.

Definition stringify (this : loc) : M string :=
  t <- load this ;;
  let buff := res t in
  modify this (set_res EmptyString) ;;
  modify this (set_index (-1)) ;;
  ret buff.

Definition combine (this selector1 : loc) (combinator : string)
    (selector2 : loc) : M loc :=
  s1 <- stringify selector1 ;;
  s2 <- stringify selector2 ;;
  modify this (set_res (s1 +:+ " " +:+ combinator +:+ " " +:+ s2)) ;;
  ret this.

(** The object literal bound to [cssSelectorBuilder]. *)
Definition init : Selector := mkSelector EmptyString false false false (-1).

End cssSelectorBuilder.

Import cssSelectorBuilder.

(** ** The JSON helpers *)

#[local] Set Warnings "-register-all".

(** The values these functions meet: [undefined], [null], booleans, numbers
    (the integers among them), strings, functions, arrays, and objects as
    the list of their own enumerable properties in enumeration order. *)
Inductive value : Type :=
| VUndefined
| VNull
| VBool (b : bool)
| VNum (n : Z)
| VStr (s : string)
| VFun (name : string)
| VArr (items : list value)
| VObj (props : list (string * value)).

(** The key of the array index [i]. *)
Definition index_key (i : nat) : string :=
  NilZero.string_of_uint (Nat.to_uint i).

Definition keyed (items : list value) : list (string * value) :=
  zip (index_key <$> seq 0 (length items)) items.

Fixpoint chars (s : string) : list value :=
  match s with
  | EmptyString => []
  | String c s' => VStr (String c EmptyString) :: chars s'
  end.

(** The own enumerable properties of a value; [undefined] and [null] have
    none to ask for. *)
Definition own_props (v : value) : option (list (string * value)) :=
  match v with
  | VUndefined | VNull => None
  | VBool _ | VNum _ | VFun _ => Some []
  | VStr s => Some (keyed (chars s))
  | VArr items => Some (keyed items)
  | VObj props => Some props
  end.

(** [Object.keys(v)], which throws on [undefined] and [null]. *)
Definition Object_keys (v : value) : option (list string) :=
  (fun props => props.*1) <$> own_props v.

Fixpoint assoc (key : string) (props : list (string * value)) : value :=
  match props with
  | [] => VUndefined
  | (k, v) :: props' => if String.eqb k key then v else assoc key props'
  end.

(** [v[key]] for a value that has properties. *)
Definition get (v : value) (key : string) : value :=
  match own_props v with
  | Some props => assoc key props
  | None => VUndefined
  end.

(** The global [JSON]: [stringify] gives a text or [undefined], [parse] a
    value or a [SyntaxError]. *)
Record JSON_runtime : Type := {
  JSON_stringify : value -> option string;
  JSON_parse : string -> option value
}.

(** What [fromJSON] reads of its first argument: [proto.constructor], and
    that as [new] applies it to a list of arguments.  [None] is for a
    [new proto.constructor(...)] that throws: the constructor throws on
    these arguments, or [proto.constructor] is nothing that [new] can
    apply. *)
Record prototype : Type := {
  constructor : list value -> option value
}.



(** The object [Rectangle] returns; its third property is that method. *)
Definition Rectangle (width height : value) : value :=
  VObj [("width", width); ("height", height); ("getArea", VFun "getArea")].

(** [new Rectangle(...args)], which never throws: parameters without an
    argument are [undefined], arguments without a parameter are dropped. *)
Definition Rectangle_prototype : prototype :=
  {| constructor := fun args =>
       Some (Rectangle (nth 0 args VUndefined) (nth 1 args VUndefined)) |}.

Section JSON.
Context (JSON : JSON_runtime).

Definition getJSON (obj : value) : option string :=
  JSON_stringify JSON obj.

Definition fromJSON (proto : prototype) (json : string) : option value :=
  obj ← JSON_parse JSON json;
  keys ← Object_keys obj;
  constructor proto ((fun key => get obj key) <$> keys).

End JSON.

(** ** Call sequences

    A client writes [b.k1(v1).k2(v2)...]: every call has the value returned
    by the one before it as its receiver.  [append] selects the method of a
    part kind and [chain] runs such a sequence from a receiver. *)

Inductive part : Type :=
| Element | Id | Class | Attribute | PseudoClass | PseudoElement.

Definition append (k : part) : loc -> string -> M loc :=
  match k with
  | Element => element
  | Id => id
  | Class => class
  | Attribute => attr
  | PseudoClass => pseudoClass
  | PseudoElement => pseudoElement
  end.

Fixpoint chain (calls : list (part * string)) (this : loc) : M loc :=
  match calls with
  | [] => ret this
  | (k, v) :: calls' => l <- append k this v ;; chain calls' l
  end.

(** The name a method looks up in [order], and the position it finds. *)
Definition kind_name (k : part) : string :=
  match k with
  | Element => "element"
  | Id => "id"
  | Class => "class"
  | Attribute => "attribute"
  | PseudoClass => "pseudo-class"
  | PseudoElement => "pseudo-element"
  end.

Definition rank (k : part) : Z := indexOf order (kind_name k).

(** The flag a method tests first, if it tests one, and the assignment that
    sets it. *)
Definition seen (k : part) (o : Selector) : bool :=
  match k with
  | Element => isEl o
  | Id => isId o
  | PseudoElement => isPsEl o
  | Class | Attribute | PseudoClass => false
  end.

Definition mark (k : part) (o : Selector) : Selector :=
  match k with
  | Element => set_isEl true o
  | Id => set_isId true o
  | PseudoElement => set_isPsEl true o
  | Class | Attribute | PseudoClass => o
  end.

(** Which methods work on [{ ...this }] and which on [this]. *)
Definition copies (k : part) : bool :=
  match k with
  | Element | Id | PseudoElement => true
  | Class | Attribute | PseudoClass => false
  end.

(** The text a method adds to [res]. *)
Definition fragment (k : part) (value : string) : string :=
  match k with
  | Element => value
  | Id => "#" +:+ value
  | Class => "." +:+ value
  | Attribute => "[" +:+ value +:+ "]"
  | PseudoClass => ":" +:+ value
  | PseudoElement => "::" +:+ value
  end.

(** The two values the builder throws. *)
Definition DuplicatePartError : exn :=
  Error "Element, id and pseudo-element should not occur more then one time inside the selector".

Definition OrderError : exn :=
  Error "Selector parts should be arranged in the following order: element, id, class, attribute, pseudo-class, pseudo-element".

(** The store a program starts with: the facade object alone, at [facade]. *)
Definition facade : loc := 0%nat.
Definition fresh : store := [init].

(** The added part: [res] extended, the flag of the kind set. *)
Definition extend (k : part) (value : string) (o : Selector) : Selector :=
  set_res (res o +:+ fragment k value) (mark k o).

(** A selector begun with [class] on the facade and continued with
    [pseudoElement] is a copy of the facade; rendering resets the copy, and
    the facade keeps the text and rank that [class] wrote to it. *)
Definition class_then_pseudoElement_then_class : M (string * string) :=
  s <- class facade "a" ;;
  s <- pseudoElement s "b" ;;
  first <- stringify s ;;
  s' <- class facade "c" ;;
  second <- stringify s' ;;
  ret (first, second).

(** The character [U+0022], for values that contain it. *)
Definition quote : string := String "034"%char EmptyString.

(** ** A JSON for running the helpers

    [JSON.stringify] and [JSON.parse] belong to the runtime.  To run
    [getJSON] and [fromJSON] on examples, this is a writer and a reader for
    the texts of: [null], [true], [false], integers, strings without
    control characters (only the quote and the backslash are escaped),
    arrays and objects.  The reader gives up on every other text, also on a
    text the runtime reads: one with a fraction or an exponent, another
    escape, a repeated key, or a key that is an array index (which the
    runtime moves to the front). *)

Module MiniJSON.

Fixpoint escape (s : string) : string :=
  match s with
  | EmptyString => EmptyString
  | String c s' =>
      if (Ascii.eqb c "034" || Ascii.eqb c "\")%bool
      then String "\" (String c (escape s'))
      else String c (escape s')
  end.

Definition write_string (s : string) : string := quote +:+ escape s +:+ quote.

Fixpoint join (texts : list string) : string :=
  match texts with
  | [] => EmptyString
  | [t] => t
  | t :: texts' => t +:+ "," +:+ join texts'
  end.

(** [undefined] and functions have no text: an array writes [null] for
    them, an object leaves the property out. *)
Fixpoint write (v : value) : option string :=
  match v with
  | VUndefined | VFun _ => None
  | VNull => Some "null"
  | VBool true => Some "true"
  | VBool false => Some "false"
  | VNum n => Some (NilZero.string_of_int (Z.to_int n))
  | VStr s => Some (write_string s)
  | VArr items =>
      Some ("[" +:+ join ((fun x => default "null" (write x)) <$> items) +:+ "]")
  | VObj props =>
      Some ("{" +:+
            join (omap (fun p => (fun t => write_string p.1 +:+ ":" +:+ t)
                                   <$> write p.2) props) +:+ "}")
  end.

Definition is_ws (c : ascii) : bool :=
  (Ascii.eqb c " " || Ascii.eqb c "009" || Ascii.eqb c "010"
   || Ascii.eqb c "013")%bool.

Fixpoint skip_ws (cs : list ascii) : list ascii :=
  match cs with
  | c :: cs' => if is_ws c then skip_ws cs' else cs
  | [] => []
  end.

Definition is_digit (c : ascii) : bool :=
  let n := Z.of_nat (nat_of_ascii c) in (48 <=? n) && (n <=? 57).

Definition digit (c : ascii) : option Z :=
  if is_digit c then Some (Z.of_nat (nat_of_ascii c) - 48) else None.

Fixpoint read_digits (acc : Z) (cs : list ascii) : Z * list ascii :=
  match cs with
  | c :: cs' =>
      match digit c with
      | Some d => read_digits (10 * acc + d) cs'
      | None => (acc, cs)
      end
  | [] => (acc, [])
  end.

(** An integer without sign: [0], or digits that do not begin with [0];
    nothing that goes on as a fraction or an exponent. *)
Definition read_nat (cs : list ascii) : option (Z * list ascii) :=
  match cs with
  | c :: cs' =>
      match digit c with
      | Some d =>
          let '(n, rest) := if d =? 0 then (0, cs') else read_digits d cs' in
          match rest with
          | c' :: _ =>
              if (is_digit c' || Ascii.eqb c' "." || Ascii.eqb c' "e"
                  || Ascii.eqb c' "E")%bool
              then None else Some (n, rest)
          | [] => Some (n, rest)
          end
      | None => None
      end
  | [] => None
  end.

Definition read_int (cs : list ascii) : option (Z * list ascii) :=
  match cs with
  | "-"%char :: cs' => (fun r => (- r.1, r.2)) <$> read_nat cs'
  | _ => read_nat cs
  end.

(** The characters of a string, up to and without the closing quote. *)
Fixpoint read_chars (cs : list ascii) : option (string * list ascii) :=
  match cs with
  | [] => None
  | c :: cs' =>
      if Ascii.eqb c "034" then Some (EmptyString, cs')
      else if Ascii.eqb c "\" then
        match cs' with
        | e :: cs'' =>
            if (Ascii.eqb e "034" || Ascii.eqb e "\")%bool
            then (fun r => (String e r.1, r.2)) <$> read_chars cs''
            else None
        | [] => None
        end
      else if (nat_of_ascii c <? 32)%nat then None
      else (fun r => (String c r.1, r.2)) <$> read_chars cs'
  end.

Abbreviation word := list_ascii_of_string (only parsing).

Fixpoint strip (w cs : list ascii) : option (list ascii) :=
  match w, cs with
  | [], _ => Some cs
  | a :: w', c :: cs' => if Ascii.eqb a c then strip w' cs' else None
  | _ :: _, [] => None
  end.

Definition is_index_key (key : string) : bool :=
  match list_ascii_of_string key with
  | [] => false
  | [c] => is_digit c
  | c :: cs =>
      (is_digit c && negb (Ascii.eqb c "0") && forallb is_digit cs)%bool
  end.

Definition plain_keys (props : list (string * value)) : bool :=
  (bool_decide (NoDup props.*1)
   && forallb (fun k => negb (is_index_key k)) props.*1)%bool.

(** A value and what follows it; [read_items] and [read_props] start after
    the opening bracket or after a comma. *)
Fixpoint read_value (fuel : nat) (cs : list ascii)
    : option (value * list ascii) :=
  match fuel with
  | O => None
  | S fuel' =>
      match skip_ws cs with
      | "n"%char :: cs' => (fun r => (VNull, r)) <$> strip (word "ull") cs'
      | "t"%char :: cs' => (fun r => (VBool true, r)) <$> strip (word "rue") cs'
      | "f"%char :: cs' => (fun r => (VBool false, r)) <$> strip (word "alse") cs'
      | "034"%char :: cs' => (fun r => (VStr r.1, r.2)) <$> read_chars cs'
      | "["%char :: cs' =>
          match skip_ws cs' with
          | "]"%char :: rest => Some (VArr [], rest)
          | _ => (fun r => (VArr r.1, r.2)) <$> read_items fuel' cs'
          end
      | "{"%char :: cs' =>
          match skip_ws cs' with
          | "}"%char :: rest => Some (VObj [], rest)
          | _ =>
              r ← read_props fuel' cs';
              if plain_keys r.1 then Some (VObj r.1, r.2) else None
          end
      | cs' => (fun r => (VNum r.1, r.2)) <$> read_int cs'
      end
  end
with read_items (fuel : nat) (cs : list ascii)
    : option (list value * list ascii) :=
  match fuel with
  | O => None
  | S fuel' =>
      x ← read_value fuel' cs;
      match skip_ws x.2 with
      | ","%char :: rest =>
          (fun r => (x.1 :: r.1, r.2)) <$> read_items fuel' rest
      | "]"%char :: rest => Some ([x.1], rest)
      | _ => None
      end
  end
with read_props (fuel : nat) (cs : list ascii)
    : option (list (string * value) * list ascii) :=
  match fuel with
  | O => None
  | S fuel' =>
      match skip_ws cs with
      | "034"%char :: cs' =>
          k ← read_chars cs';
          match skip_ws k.2 with
          | ":"%char :: cs'' =>
              x ← read_value fuel' cs'';
              match skip_ws x.2 with
              | ","%char :: rest =>
                  (fun r => ((k.1, x.1) :: r.1, r.2)) <$> read_props fuel' rest
              | "}"%char :: rest => Some ([(k.1, x.1)], rest)
              | _ => None
              end
          | _ => None
          end
      | _ => None
      end
  end.

Definition read (text : string) : option value :=
  r ← read_value (S (String.length text)) (list_ascii_of_string text);
  match skip_ws r.2 with
  | [] => Some r.1
  | _ :: _ => None
  end.

Definition JSON : JSON_runtime :=
  {| JSON_stringify := write; JSON_parse := read |}.

End MiniJSON.

(** ** Statements of the specification that the code is compared with *)

(** The rule as the specification words it, for the call [k(value)] made on
    the selector that the calls [calls] built from the facade of a fresh
    program: above the rank it throws the order error, otherwise the
    returned selector has the rank. *)
Definition order_rule_as_stated (calls : list (part * string)) (k : part)
    (value : string) : Prop :=
  forall l h t,
    chain calls facade fresh = (Ret l, h) -> h !! l = Some t ->
    (index t > rank k ->
       exists h', append k l value h = (Throw OrderError, h')) /\
    (index t <= rank k ->
       exists l' h' t', append k l value h = (Ret l', h') /\
                        h' !! l' = Some t' /\ index t' = rank k).

(** The second call of kind [k] in one sequence, [pre], [k(v1)], [mid],
    [k(v2)], throws [e] and writes nothing. *)
Definition second_call_throws (e : exn) (k : part)
    (pre mid : list (part * string)) (v1 v2 : string)
    (this : loc) (h : store) : Prop :=
  forall l h',
    chain (pre ++ (k, v1) :: mid) this h = (Ret l, h') ->
    append k l v2 h' = (Throw e, h').

(** The combination as the specification words it: the rendered text of
    [combine(A, c, B)] is the text of [A], a space, [c], a space and the
    text of [B], for every two selectors. *)
Definition combine_as_stated (this A : loc) (c : string) (B : loc)
    (h : store) : Prop :=
  forall a b,
    h !! A = Some a -> h !! B = Some b ->
    ((s <- combine this A c B ;; stringify s) h).1
    = Ret (res a +:+ " " +:+ c +:+ " " +:+ res b).

(** The round trip as the specification words it: [fromJSON] of the text
    [getJSON] gives for [o] returns a value with the fields of [o]. *)
Definition round_trips (JSON : JSON_runtime) (proto : prototype)
    (o : value) : Prop :=
  exists r keys,
    (getJSON JSON o ≫= fromJSON JSON proto) = Some r /\
    Object_keys o = Some keys /\
    forall key, key ∈ keys -> get r key = get o key.

(** ** Whole sequences of calls *)

(** The text a sequence of calls adds: the fragments in the order of the
    calls. *)
Fixpoint text_of (calls : list (part * string)) : string :=
  match calls with
  | [] => EmptyString
  | (k, v) :: calls' => fragment k v +:+ text_of calls'
  end.

#[global] Instance part_eq_dec : EqDecision part.
Proof. solve_decision. Defined.

(** The kinds whose method tests a flag. *)
Definition guarded (k : part) : bool :=
  match k with
  | Element | Id | PseudoElement => true
  | Class | Attribute | PseudoClass => false
  end.

(** The ranks of [kinds] start at [i] or above and never go down. *)
Fixpoint ordered_from (i : Z) (kinds : list part) : bool :=
  match kinds with
  | [] => true
  | k :: kinds' => (i <=? rank k) && ordered_from (rank k) kinds'
  end.

(** The kinds that can be called in this order on the selector [t]: the
    ranks go up from [index t], no kind is called whose flag [t] has set,
    and a kind with a flag is called once at most. *)
Definition well_formed (t : Selector) (kinds : list part) : Prop :=
  ordered_from (index t) kinds = true /\
  Forall (fun k => seen k t = false) kinds /\
  NoDup (filter (fun k => guarded k = true) kinds).

(** What [stringify] leaves of a selector. *)
Definition rendered (o : Selector) : Selector :=
  set_index (-1) (set_res EmptyString o).

(** * Properties *)

(** ** Store lemmas *)

Lemma lookup_snoc (h : store) (o : Selector) :
  (h ++ [o])%list !! length h = Some o.
Proof. by apply list_lookup_middle. Qed.

Lemma insert_snoc (h : store) (o o' : Selector) :
  <[length h := o']> (h ++ [o])%list = (h ++ [o'])%list.
Proof. induction h as [|x h IH]; simpl; [done | by rewrite IH]. Qed.

Lemma lookup_snoc_old (h : store) (o x : Selector) (l : loc) :
  h !! l = Some x -> (h ++ [o])%list !! l = Some x.
Proof. intros H. by apply lookup_app_l_Some. Qed.

Lemma modify_ok h l o f :
  h !! l = Some o -> modify l f h = (Ret tt, <[l := f o]> h).
Proof. intros H. unfold modify. by rewrite H. Qed.

Lemma lookup_insert_same (h : store) (l : loc) (o x : Selector) :
  h !! l = Some x -> <[l := o]> h !! l = Some o.
Proof. intros H. apply list_lookup_insert_eq. by eapply lookup_lt_Some. Qed.

Lemma getErr_throws {A} h : @getErr A h = (Throw DuplicatePartError, h).
Proof. reflexivity. Qed.

Lemma getErrOrder_throws {A} h : @getErrOrder A h = (Throw OrderError, h).
Proof. reflexivity. Qed.

Lemma rank_values :
  rank Element = 0 /\ rank Id = 1 /\ rank Class = 2 /\
  rank Attribute = 3 /\ rank PseudoClass = 4 /\ rank PseudoElement = 5.
Proof. repeat split; reflexivity. Qed.

(** ** What one call does *)

Ltac run_js H :=
  repeat (progress (
    unfold bind, load, modify, alloc, ret, getErr, getErrOrder, throw;
    rewrite ?H, ?lookup_snoc, ?insert_snoc, ?(lookup_insert_same _ _ _ _ H),
      ?list_insert_insert_eq;
    cbn [res isEl isId isPsEl index
         set_res set_isEl set_isId set_isPsEl set_index])).

Lemma append_spec k this value h t :
  h !! this = Some t ->
  append k this value h =
    if seen k t then (Throw DuplicatePartError, h)
    else if index t >? rank k then
      (Throw OrderError, if copies k then (h ++ [extend k value t])%list else h)
    else if copies k then
      (Ret (length h), (h ++ [set_index (rank k) (extend k value t)])%list)
    else
      (Ret this, <[this := set_index (rank k) (extend k value t)]> h).
Proof.
  intros H.
  destruct k; cbn [append seen copies mark fragment extend];
    unfold element, id, class, attr, pseudoClass, pseudoElement, rank, kind_name;
    run_js H.
  1,2,6: match goal with |- context [if ?b then _ else _] => destruct b end;
    [done|]; run_js H.
  all: match goal with |- context [if ?b then _ else _] => destruct b end;
    run_js H; done.
Qed.

Lemma append_dangling k this value h :
  h !! this = None -> append k this value h = (Throw TypeError, h).
Proof.
  intros H. destruct k; cbn [append];
    unfold element, id, class, attr, pseudoClass, pseudoElement, bind, load;
    by rewrite H.
Qed.

(** A call that returns: its receiver was an object whose flag was unset and
    whose [index] was not above the rank; the returned reference holds the
    extended selector, at a new place or at the receiver's. *)
Lemma append_returns k this value h l h' :
  append k this value h = (Ret l, h') ->
  exists t,
    h !! this = Some t /\ seen k t = false /\ index t <= rank k /\
    h' !! l = Some (set_index (rank k) (extend k value t)) /\
    if copies k
    then l = length h /\ h' = (h ++ [set_index (rank k) (extend k value t)])%list
    else l = this /\ h' = <[this := set_index (rank k) (extend k value t)]> h.
Proof.
  destruct (h !! this) as [t|] eqn:H.
  2: { rewrite (append_dangling _ _ _ _ H). discriminate. }
  rewrite (append_spec _ _ _ _ _ H).
  destruct (seen k t) eqn:Hs; [discriminate|].
  destruct (index t >? rank k) eqn:Hr; [discriminate|].
  rewrite Z.gtb_ltb in Hr. apply Z.ltb_ge in Hr.
  destruct (copies k); intros [= <- <-]; exists t; repeat split; try done.
  - apply lookup_snoc.
  - by eapply lookup_insert_same.
Qed.

(** A call that throws: every object of the store is as it was. *)
Lemma append_throws k this value h e h' :
  append k this value h = (Throw e, h') ->
  (e = DuplicatePartError \/ e = OrderError \/ e = TypeError) /\
  forall l o, h !! l = Some o -> h' !! l = Some o.
Proof.
  destruct (h !! this) as [t|] eqn:H.
  2: { rewrite (append_dangling _ _ _ _ H). intros [= <- <-]. auto. }
  rewrite (append_spec _ _ _ _ _ H).
  destruct (seen k t); [intros [= <- <-]; auto|].
  destruct (index t >? rank k); [|destruct (copies k); discriminate].
  intros [= <- <-]. split; [auto|].
  destruct (copies k); [|done]. intros l o Hl. by apply lookup_snoc_old.
Qed.

Lemma chain_app calls1 calls2 this h :
  chain (calls1 ++ calls2) this h =
  (l <- chain calls1 this ;; chain calls2 l) h.
Proof.
  revert this h. induction calls1 as [|[k v] calls1 IH]; intros this h.
  - reflexivity.
  - cbn [chain app]. unfold bind.
    destruct (append k this v h) as [[l|e] h1]; [|reflexivity].
    rewrite IH. reflexivity.
Qed.

Lemma bind_returns {A B} (m : M A) (f : A -> M B) h b h' :
  (x <- m ;; f x) h = (Ret b, h') ->
  exists a h1, m h = (Ret a, h1) /\ f a h1 = (Ret b, h').
Proof.
  unfold bind. destruct (m h) as [[a|e] h1]; [eauto | discriminate].
Qed.

Lemma seen_extend k0 k r value t :
  seen k0 t = true -> seen k0 (set_index r (extend k value t)) = true.
Proof. destruct k0, k; cbn; congruence. Qed.

Lemma seen_own k r value t :
  k = Element \/ k = Id \/ k = PseudoElement ->
  seen k (set_index r (extend k value t)) = true.
Proof. intros [->|[->| ->]]; reflexivity. Qed.

(** Along a sequence of calls that all return, [index] does not go down and
    a flag that is set stays set. *)
Lemma chain_returns calls : forall this h t l h',
  h !! this = Some t ->
  chain calls this h = (Ret l, h') ->
  exists t', h' !! l = Some t' /\ index t <= index t' /\
             forall k, seen k t = true -> seen k t' = true.
Proof.
  induction calls as [|[k v] calls IH]; intros this h t l h' Ht Hrun.
  - injection Hrun as <- <-. exists t. split; [done|]. split; [lia | auto].
  - cbn [chain] in Hrun.
    apply bind_returns in Hrun as (l1 & h1 & Hstep & Hrest).
    apply append_returns in Hstep as (t0 & Ht0 & _ & Hle & Hl1 & _).
    rewrite Ht in Ht0. injection Ht0 as <-.
    destruct (IH _ _ _ _ _ Hl1 Hrest) as (t' & Ht' & Hidx & Hseen).
    exists t'. split; [done|]. cbn [index set_index] in Hidx.
    split; [lia|]. intros k0 Hk0. apply Hseen. by apply seen_extend.
Qed.

(** ** The ordering rule *)

(** C1, counterexample: after [element('a').id('b')] the recorded rank is 1,
    above the rank 0 of [element], and [element('c')] throws the duplicate
    error, which is not the order error. *)
Lemma order_rule_as_stated_fails :
  ~ order_rule_as_stated [(Element, "a"); (Id, "b")] Element "c".
Proof.
  intros Hclaim.
  destruct (Hclaim 2%nat _ _ eq_refl eq_refl) as [Habove _].
  destruct Habove as [h' Hrun]; [reflexivity|].
  vm_compute in Hrun. discriminate Hrun.
Qed.

(** C1 (amended): a call whose duplicate flag is set on the receiver throws
    the duplicate error whatever the ranks.  Any other call, so every
    [class], [attr] and [pseudoClass], throws the order error when the
    receiver's [index] is strictly above the rank of the call's kind, and
    otherwise returns a selector whose [index] is that rank, also when the two
    were equal.  Hence along a sequence of calls that all return, [index]
    never goes down. *)
Theorem order_rule k this value h t calls l h1 :
  h !! this = Some t ->
  (seen k t = true -> append k this value h = (Throw DuplicatePartError, h)) /\
  (seen k t = false -> index t > rank k ->
     exists h', append k this value h = (Throw OrderError, h')) /\
  (seen k t = false -> index t <= rank k ->
     exists l' h' t', append k this value h = (Ret l', h') /\
                      h' !! l' = Some t' /\ index t' = rank k /\
                      index t <= index t') /\
  (chain calls this h = (Ret l, h1) ->
     exists t1, h1 !! l = Some t1 /\ index t <= index t1).
Proof.
  intros Ht. rewrite (append_spec _ _ _ _ _ Ht).
  split; [by intros ->|]. split; [|split].
  - intros -> Habove. apply Z.gtb_gt in Habove. rewrite Habove. eauto.
  - intros -> Hle.
    assert ((index t >? rank k) = false) as ->
      by (rewrite Z.gtb_ltb; apply Z.ltb_ge; lia).
    destruct (copies k).
    + do 3 eexists. split; [reflexivity|].
      split; [apply lookup_snoc|]. cbn [index set_index]. lia.
    + do 3 eexists. split; [reflexivity|].
      split; [by eapply lookup_insert_same|]. cbn [index set_index]. lia.
  - intros Hrun.
    destruct (chain_returns _ _ _ _ _ _ Ht Hrun) as (t1 & Ht1 & Hidx & _).
    eauto.
Qed.

Lemma order_rule_witness :
  fresh !! facade = Some init /\
  (exists l' h' t', append Class facade "a" fresh = (Ret l', h') /\
                    h' !! l' = Some t' /\ index t' = rank Class /\
                    index init <= index t') /\
  (exists t1, [set_index 2 (set_res ".a.b" init)] !! facade = Some t1 /\
              index init <= index t1).
Proof.
  pose proof (order_rule Class facade "a" fresh init
                [(Class, "a"); (Class, "b")] facade
                [set_index 2 (set_res ".a.b" init)] eq_refl)
    as (_ & _ & Hret & Hchain).
  split; [reflexivity|]. split.
  - apply Hret; [reflexivity | vm_compute; discriminate].
  - apply Hchain. reflexivity.
Defined.

(** ** The duplicate rule *)

(** C2, counterexample: [element('table').element('div')] throws an error
    whose message is not the one of the specification: the source has
    [then] where the specification has [than], and no full stop. *)
Lemma duplicate_message_as_stated_fails :
  ~ second_call_throws
      (Error "Element, id and pseudo-element should not occur more than one time inside the selector.")
      Element [] [] "table" "div" facade fresh.
Proof.
  intros Hclaim. specialize (Hclaim _ _ eq_refl).
  vm_compute in Hclaim. discriminate Hclaim.
Qed.

(** C2 (amended): in every sequence of calls, a second call of [element], of
    [id] or of [pseudoElement] throws the error built by [getErr], whose
    message is "Element, id and pseudo-element should not occur more then one
    time inside the selector", whatever was called before and in between. *)
Theorem duplicate_part_rejected k pre mid v1 v2 this h :
  k = Element \/ k = Id \/ k = PseudoElement ->
  second_call_throws
    (Error "Element, id and pseudo-element should not occur more then one time inside the selector")
    k pre mid v1 v2 this h.
Proof.
  intros Hk l h' Hrun.
  rewrite chain_app in Hrun.
  apply bind_returns in Hrun as (l0 & h0 & _ & Hrun).
  cbn [chain] in Hrun.
  apply bind_returns in Hrun as (l1 & h1 & Hfirst & Hmid).
  apply append_returns in Hfirst as (t0 & _ & _ & _ & Hl1 & _).
  destruct (chain_returns _ _ _ _ _ _ Hl1 Hmid) as (t' & Ht' & _ & Hseen).
  rewrite (append_spec _ _ _ _ _ Ht').
  by rewrite (Hseen k (seen_own _ _ _ _ Hk)).
Qed.

Lemma duplicate_part_rejected_witness :
  (Id = Element \/ Id = Id \/ Id = PseudoElement) /\
  second_call_throws
    (Error "Element, id and pseudo-element should not occur more then one time inside the selector")
    Id [(Element, "div")] [(Class, "a")] "x" "y" facade fresh.
Proof.
  assert (Id = Element \/ Id = Id \/ Id = PseudoElement) as Hk
    by (right; left; reflexivity).
  split; [exact Hk|].
  exact (duplicate_part_rejected Id [(Element, "div")] [(Class, "a")]
           "x" "y" facade fresh Hk).
Defined.

(** ** Failed calls *)

(** C6: a call that throws, with either error, leaves the selector it was
    called on as it was, text, rank and flags, and with it every other object
    of the store: the flag is tested before anything is written, and the
    writes [element], [id] and [pseudoElement] make before they compare the
    ranks go to their private copy. *)
Theorem failed_append_changes_nothing k this value h t e h' :
  h !! this = Some t ->
  append k this value h = (Throw e, h') ->
  (e = DuplicatePartError \/ e = OrderError) /\
  h' !! this = Some t /\
  forall l o, h !! l = Some o -> h' !! l = Some o.
Proof.
  intros Ht Hrun.
  destruct (append_throws _ _ _ _ _ _ Hrun) as [He Hframe].
  split; [|split; auto].
  rewrite (append_spec _ _ _ _ _ Ht) in Hrun.
  destruct (seen k t); [injection Hrun as <- _; auto|].
  destruct (index t >? rank k); [injection Hrun as <- _; auto|].
  destruct (copies k); discriminate.
Qed.

Lemma failed_append_changes_nothing_witness :
  let h := [mkSelector ".a" false false false 2] in
  class facade "a" fresh = (Ret facade, h) /\
  h !! facade = Some (mkSelector ".a" false false false 2) /\
  append Id facade "x" h =
    (Throw OrderError, h ++ [mkSelector ".a#x" false true false 2])%list /\
  (h ++ [mkSelector ".a#x" false true false 2])%list !! facade =
    Some (mkSelector ".a" false false false 2).
Proof.
  intros h.
  assert (h !! facade = Some (mkSelector ".a" false false false 2)) as Ht
    by reflexivity.
  assert (append Id facade "x" h =
          (Throw OrderError, h ++ [mkSelector ".a#x" false true false 2])%list)
    as Hrun by reflexivity.
  split; [reflexivity|]. split; [exact Ht|]. split; [exact Hrun|].
  exact (proj1 (proj2 (failed_append_changes_nothing _ _ _ _ _ _ _ Ht Hrun))).
Defined.

(** ** Rendering *)

Lemma stringify_spec this h t :
  h !! this = Some t ->
  stringify this h =
    (Ret (res t), <[this := set_index (-1) (set_res EmptyString t)]> h).
Proof. intros H. unfold stringify. run_js H. reflexivity. Qed.

(** C3: from a fresh builder,
    [element('div').id('main').class('container').class('draggable')]
    renders to ['div#main.container.draggable']; with any four values, to
    the element value, then [#] and the id value, then [.] and each class
    value, in the order of the calls. *)
Theorem element_id_class_class_renders :
  ((s <- element facade "div" ;; s <- id s "main" ;;
    s <- class s "container" ;; s <- class s "draggable" ;;
    stringify s) fresh).1 = Ret "div#main.container.draggable" /\
  forall e i c1 c2 : string,
    ((s <- element facade e ;; s <- id s i ;;
      s <- class s c1 ;; s <- class s c2 ;; stringify s) fresh).1
    = Ret (((e +:+ "#" +:+ i) +:+ "." +:+ c1) +:+ "." +:+ c2).
Proof. split; [|intros e i c1 c2]; reflexivity. Qed.

(** C7: [attr] adds the value between square brackets and [pseudoClass]
    adds it after a colon, each to the receiver's text and whenever the
    receiver's rank allows the call; and
    [element('a').attr('href$=?.png?').pseudoClass('focus')], with the
    character U+0022 for [?], renders to ['a[href$=?.png?]:focus']. *)
Theorem attr_pseudoClass_append this value h t :
  h !! this = Some t ->
  (index t <= 3 ->
     attr this value h =
       (Ret this,
        <[this := set_index 3 (set_res (res t +:+ "[" +:+ value +:+ "]") t)]> h)) /\
  (index t <= 4 ->
     pseudoClass this value h =
       (Ret this,
        <[this := set_index 4 (set_res (res t +:+ ":" +:+ value) t)]> h)) /\
  ((s <- element facade "a" ;;
    s <- attr s ("href$=" +:+ quote +:+ ".png" +:+ quote) ;;
    s <- pseudoClass s "focus" ;; stringify s) fresh).1
  = Ret ("a[href$=" +:+ quote +:+ ".png" +:+ quote +:+ "]:focus").
Proof.
  intros Ht. split; [|split; [|reflexivity]]; intros Hle.
  - change (attr this value h) with (append Attribute this value h).
    rewrite (append_spec _ _ _ _ _ Ht). cbn [seen copies].
    change (rank Attribute) with 3.
    assert ((index t >? 3) = false) as ->
      by (rewrite Z.gtb_ltb; apply Z.ltb_ge; lia).
    reflexivity.
  - change (pseudoClass this value h) with (append PseudoClass this value h).
    rewrite (append_spec _ _ _ _ _ Ht). cbn [seen copies].
    change (rank PseudoClass) with 4.
    assert ((index t >? 4) = false) as ->
      by (rewrite Z.gtb_ltb; apply Z.ltb_ge; lia).
    reflexivity.
Qed.

Lemma attr_pseudoClass_append_witness :
  let h := [init; mkSelector "a" true false false 0] in
  element facade "a" fresh = (Ret 1%nat, h) /\
  attr 1%nat "x=1" h =
    (Ret 1%nat, [init; mkSelector "a[x=1]" true false false 3]) /\
  pseudoClass 1%nat "focus" h =
    (Ret 1%nat, [init; mkSelector "a:focus" true false false 4]).
Proof.
  intros h.
  pose proof (attr_pseudoClass_append 1%nat "x=1" h _ eq_refl) as (Ha & _ & _).
  pose proof (attr_pseudoClass_append 1%nat "focus" h _ eq_refl) as (_ & Hp & _).
  split; [reflexivity|]. split.
  - apply Ha. vm_compute. discriminate.
  - apply Hp. vm_compute. discriminate.
Defined.

(** C9: [stringify] returns the receiver's text and writes only [res] and
    [index] of the receiver; the three flags stay.  So a selector that has
    an element part still refuses [element] after it was rendered, although
    its text is empty again. *)
Theorem stringify_keeps_flags this value h t :
  h !! this = Some t ->
  exists t',
    stringify this h = (Ret (res t), <[this := t']> h) /\
    res t' = EmptyString /\ index t' = -1 /\
    isEl t' = isEl t /\ isId t' = isId t /\ isPsEl t' = isPsEl t /\
    (isEl t = true ->
     element this value (<[this := t']> h) =
       (Throw DuplicatePartError, <[this := t']> h)).
Proof.
  intros Ht. exists (set_index (-1) (set_res EmptyString t)).
  split; [by apply stringify_spec|]. repeat split.
  intros Hel. change element with (append Element).
  rewrite (append_spec _ _ _ _ (set_index (-1) (set_res EmptyString t)))
    by (by eapply lookup_insert_same).
  cbn [seen isEl set_index set_res]. by rewrite Hel.
Qed.

Lemma stringify_keeps_flags_witness :
  let h := [init; mkSelector "div" true false false 0] in
  let h' := [init; mkSelector EmptyString true false false (-1)] in
  element facade "div" fresh = (Ret 1%nat, h) /\
  stringify 1%nat h = (Ret "div", h') /\
  element 1%nat "p" h' = (Throw DuplicatePartError, h').
Proof.
  intros h h'.
  destruct (stringify_keeps_flags 1%nat "p" h _ eq_refl)
    as (t' & Hrun & _ & _ & _ & _ & _ & Hdup).
  vm_compute in Hrun. injection Hrun as <-.
  split; [reflexivity|]. split; [reflexivity|].
  apply Hdup. reflexivity.
Defined.

(** ** Sharing *)



(** ** Combination *)

(** C4, counterexample: with [d = element('div')] given for both selectors,
    [combine(d, '>', d)] renders to ['div > '] and not to ['div > div']:
    rendering the first argument has emptied the second. *)
Lemma combine_as_stated_fails :
  element facade "div" fresh
    = (Ret 1%nat, [init; mkSelector "div" true false false 0]) /\
  ((s <- combine facade 1%nat ">" 1%nat ;; stringify s)
     [init; mkSelector "div" true false false 0]).1 = Ret "div > " /\
  ~ combine_as_stated facade 1%nat ">" 1%nat
      [init; mkSelector "div" true false false 0].
Proof.
  split; [reflexivity|]. split; [reflexivity|].
  intros Hclaim. specialize (Hclaim _ _ eq_refl eq_refl).
  vm_compute in Hclaim. discriminate Hclaim.
Qed.

(** The same happens to two selectors that were both begun with [class] on
    the facade, which are one object. *)
Example combine_of_two_class_chains :
  ((a <- class facade "a" ;; b <- class facade "b" ;;
    s <- combine facade a ">" b ;; stringify s) fresh).1 = Ret ".a.b > ".
Proof. reflexivity. Qed.

(** C4 (amended): for two selectors that are different objects and every
    combinator [c], [combine(A, c, B)] renders to the text of [A], one
    space, [c], one space, the text of [B]; so
    [combine(element('div'), '>', id('x'))] renders to ['div > #x']. *)
Theorem combine_renders this A c B h a b :
  h !! A = Some a -> h !! B = Some b -> A <> B -> is_Some (h !! this) ->
  ((s <- combine this A c B ;; stringify s) h).1
    = Ret (res a +:+ " " +:+ c +:+ " " +:+ res b) /\
  ((a <- element facade "div" ;; b <- id facade "x" ;;
    s <- combine facade a ">" b ;; stringify s) fresh).1 = Ret "div > #x".
Proof.
  intros Ha Hb Hne Hthis. split; [|reflexivity].
  unfold combine, bind at 1 2 3.
  rewrite (stringify_spec _ _ _ Ha).
  set (h1 := <[A := _]> h).
  assert (h1 !! B = Some b) as Hb1
    by (unfold h1; by rewrite list_lookup_insert_ne).
  rewrite (stringify_spec _ _ _ Hb1).
  set (h2 := <[B := _]> h1).
  assert (is_Some (h2 !! this)) as [x Hx].
  { apply lookup_lt_is_Some. unfold h2, h1. rewrite !length_insert.
    by apply lookup_lt_is_Some. }
  unfold bind. rewrite (modify_ok _ _ _ _ Hx). unfold ret.
  rewrite (stringify_spec _ _ (set_res (res a +:+ " " +:+ c +:+ " " +:+ res b) x))
    by (by eapply lookup_insert_same).
  reflexivity.
Qed.

Lemma combine_renders_witness :
  let h := [init; mkSelector "p" true false false 0;
            mkSelector "a" true false false 0] in
  (p <- element facade "p" ;; a <- element facade "a" ;; ret (p, a)) fresh
    = (Ret (1%nat, 2%nat), h) /\
  1%nat <> 2%nat /\
  ((s <- combine facade 1%nat "+" 2%nat ;; stringify s) h).1 = Ret "p + a".
Proof.
  intros h. split; [reflexivity|].
  assert (1%nat <> 2%nat) as Hne by discriminate.
  split; [exact Hne|].
  exact (proj1 (combine_renders facade 1%nat "+" 2%nat h _ _
                  eq_refl eq_refl Hne (ex_intro _ init eq_refl))).
Defined.

(** ** Reuse of the facade after rendering *)

(** What [stringify] does to its receiver is in [stringify_spec]: the text
    is returned, [res] and [index] are as in [init] afterwards.  It is the
    receiver that is reset, and the facade only when it is the receiver. *)

(** Calls made on another object than the facade never come back to the
    facade and never write to it. *)
Lemma chain_off_facade calls : forall l h l' h',
  l <> facade -> h !! facade = Some init ->
  chain calls l h = (Ret l', h') ->
  l' <> facade /\ h' !! facade = Some init.
Proof.
  induction calls as [|[k v] calls IH]; intros l h l' h' Hl Hf Hrun.
  - by injection Hrun as <- <-.
  - cbn [chain] in Hrun.
    apply bind_returns in Hrun as (l1 & h1 & Hstep & Hrest).
    apply append_returns in Hstep as (t & _ & _ & _ & _ & Hshape).
    apply (IH _ _ _ _) with (3 := Hrest); destruct (copies k);
      destruct Hshape as [-> ->]; try done.
    + apply lookup_lt_Some in Hf. unfold facade in *. lia.
    + by apply lookup_snoc_old.
    + by rewrite list_lookup_insert_ne.
Qed.

(** So a selector begun with [element], [id] or [pseudoElement] leaves the
    facade as the program started it, rendered or not. *)
Lemma copy_first_keeps_facade k v calls l h :
  copies k = true ->
  chain ((k, v) :: calls) facade fresh = (Ret l, h) ->
  h !! facade = Some init.
Proof.
  intros Hk Hrun. cbn [chain] in Hrun.
  apply bind_returns in Hrun as (l1 & h1 & Hstep & Hrest).
  apply append_returns in Hstep as (t & _ & _ & _ & _ & Hshape).
  rewrite Hk in Hshape. destruct Hshape as [-> ->].
  by eapply chain_off_facade with (3 := Hrest).
Qed.

(** And a selector made of [class], [attr] and [pseudoClass] calls alone is
    the facade, which rendering it makes as it was. *)
Lemma in_place_only_rearms calls : forall t l h,
  Forall (fun c => copies c.1 = false) calls ->
  chain calls facade [t] = (Ret l, h) ->
  l = facade /\
  (stringify l h).2 = [set_index (-1) (set_res EmptyString t)].
Proof.
  induction calls as [|[k v] calls IH]; intros t l h Hall Hrun.
  - injection Hrun as <- <-. done.
  - apply Forall_cons in Hall as [Hk Hall]. cbn [chain fst] in *.
    apply bind_returns in Hrun as (l1 & h1 & Hstep & Hrest).
    apply append_returns in Hstep as (t0 & [= <-] & _ & _ & _ & Hshape).
    rewrite Hk in Hshape. destruct Hshape as [-> ->].
    destruct (IH _ _ _ Hall Hrest) as [-> ->]. split; [done|].
    by destruct k.
Qed.

(** C5: after [class('a').pseudoElement('b')] was rendered, to ['.a::b'],
    the selector [class('c')] begun on the same facade renders to ['.a.c']:
    the text of the first is in the second.  Begun with [element] it is
    refused, by the rank the first left. *)
Theorem render_leaves_residue :
  (class_then_pseudoElement_then_class fresh).1 = Ret (".a::b", ".a.c") /\
  ((s <- class facade "c" ;; stringify s) fresh).1 = Ret ".c" /\
  ((s <- class facade "a" ;; s <- pseudoElement s "b" ;; _ <- stringify s ;;
    element facade "div") fresh).1 = Throw OrderError.
Proof. repeat split. Qed.

(** ** The JSON round trip *)

Lemma assoc_fresh key v props k :
  k <> key -> assoc key ((k, v) :: props) = assoc key props.
Proof. intros Hne. cbn [assoc]. by apply String.eqb_neq in Hne as ->. Qed.

(** Reading every key of an object in turn gives its values in order. *)
Lemma get_keys props :
  NoDup props.*1 -> (fun key => get (VObj props) key) <$> props.*1 = props.*2.
Proof.
  unfold get. cbn [own_props]. induction props as [|[k v] props IH]; [done|].
  intros [Hnotin Hnodup]%NoDup_cons. cbn [fmap list_fmap fst snd assoc].
  rewrite String.eqb_refl. f_equal.
  rewrite <- (IH Hnodup). apply list_fmap_ext. intros i key Hkey.
  apply assoc_fresh. intros ->. apply Hnotin.
  by eapply list_elem_of_lookup_2.
Qed.

(** C8, counterexample: the object [{ height: 10, width: 20 }] is written
    and read back as itself, and [fromJSON] with [Rectangle.prototype]
    returns for its text a rectangle of width 10 and height 20: the first
    value went to the first parameter. *)
Lemma round_trip_as_stated_fails :
  let o := VObj [("height", VNum 10); ("width", VNum 20)] in
  (getJSON MiniJSON.JSON o ≫= JSON_parse MiniJSON.JSON) = Some o /\
  (getJSON MiniJSON.JSON o ≫= fromJSON MiniJSON.JSON Rectangle_prototype)
    = Some (Rectangle (VNum 10) (VNum 20)) /\
  ~ round_trips MiniJSON.JSON Rectangle_prototype o.
Proof.
  intros o. split; [reflexivity|]. split; [reflexivity|].
  intros (r & keys & Hr & Hkeys & Hget).
  vm_compute in Hr. injection Hr as <-. injection Hkeys as <-.
  specialize (Hget "width" ltac:(do 2 constructor)).
  vm_compute in Hget. discriminate Hget.
Qed.

(** C8 (amended): when the text [getJSON] gives for [o] is read back as an
    object with the fields [props], [fromJSON] does what
    [new proto.constructor] does with the values of these fields, in their
    order: it returns what that builds.  That is [o] again exactly when
    this constructor builds [o] from them, as the one of
    [Rectangle.prototype] does for the fields [width], [height] of a
    rectangle. *)
Theorem fromJSON_getJSON JSON proto o text props :
  getJSON JSON o = Some text ->
  JSON_parse JSON text = Some (VObj props) ->
  NoDup props.*1 ->
  (getJSON JSON o ≫= fromJSON JSON proto)
    = constructor proto props.*2 /\
  ((getJSON JSON o ≫= fromJSON JSON proto) = Some o <->
   constructor proto props.*2 = Some o) /\
  (forall w h, props = [("width", w); ("height", h)] ->
     (getJSON JSON o ≫= fromJSON JSON Rectangle_prototype)
       = Some (Rectangle w h)).
Proof.
  intros Htext Hparse Hnodup.
  assert (forall p, (getJSON JSON o ≫= fromJSON JSON p)
                    = constructor p props.*2) as Hrun.
  { intros p. rewrite Htext. cbn [mbind option_bind]. unfold fromJSON.
    rewrite Hparse. cbn [mbind option_bind Object_keys own_props fmap option_fmap option_map].
    by rewrite get_keys. }
  split; [apply Hrun|]. split.
  - by rewrite Hrun.
  - intros w h ->. by rewrite Hrun.
Qed.

Lemma fromJSON_getJSON_witness :
  let o := Rectangle (VNum 10) (VNum 20) in
  let text := "{" +:+ quote +:+ "width" +:+ quote +:+ ":10," +:+
              quote +:+ "height" +:+ quote +:+ ":20}" in
  getJSON MiniJSON.JSON o = Some text /\
  JSON_parse MiniJSON.JSON text
    = Some (VObj [("width", VNum 10); ("height", VNum 20)]) /\
  (getJSON MiniJSON.JSON o ≫= fromJSON MiniJSON.JSON Rectangle_prototype)
    = Some o.
Proof.
  intros o text.
  assert (NoDup [("width", VNum 10); ("height", VNum 20)].*1) as Hnodup
    by (refine (bool_decide_unpack _ _); vm_compute; exact I).
  split; [reflexivity|]. split; [reflexivity|].
  exact (proj1 (fromJSON_getJSON MiniJSON.JSON Rectangle_prototype o text
                  [("width", VNum 10); ("height", VNum 20)]
                  eq_refl eq_refl Hnodup)).
Defined.


(** * Further properties of the builder *)

Lemma append_assoc (a b c : string) : (a +:+ b) +:+ c = a +:+ b +:+ c.
Proof.
  induction a as [|x a IH]; [reflexivity|].
  change (String x ((a +:+ b) +:+ c) = String x (a +:+ b +:+ c)).
  by rewrite IH.
Qed.

Lemma append_empty_r (a : string) : a +:+ EmptyString = a.
Proof.
  induction a as [|x a IH]; [reflexivity|].
  change (String x (a +:+ EmptyString) = String x a). by rewrite IH.
Qed.

(** ** The text of a sequence of calls *)

Lemma chain_text calls : forall this h t l h',
  h !! this = Some t ->
  chain calls this h = (Ret l, h') ->
  exists t', h' !! l = Some t' /\ res t' = res t +:+ text_of calls.
Proof.
  induction calls as [|[k v] calls IH]; intros this h t l h' Ht Hrun.
  - injection Hrun as <- <-. exists t. split; [done|].
    cbn [text_of]. by rewrite append_empty_r.
  - cbn [chain] in Hrun.
    apply bind_returns in Hrun as (l1 & h1 & Hstep & Hrest).
    apply append_returns in Hstep as (t0 & Ht0 & _ & _ & Hl1 & _).
    rewrite Ht in Ht0. injection Ht0 as <-.
    destruct (IH _ _ _ _ _ Hl1 Hrest) as (t' & Ht' & Hres).
    exists t'. split; [done|]. rewrite Hres. cbn [res set_index extend set_res text_of].
    apply append_assoc.
Qed.

(** X1: when a sequence of calls returns, rendering the selector it returns
    gives the text of the selector it was begun on followed by the fragment
    of every call, in the order of the calls. *)
Theorem chain_renders_fragments calls this h t l h' :
  h !! this = Some t ->
  chain calls this h = (Ret l, h') ->
  (stringify l h').1 = Ret (res t +:+ text_of calls).
Proof.
  intros Ht Hrun.
  destruct (chain_text _ _ _ _ _ _ Ht Hrun) as (t' & Ht' & Hres).
  rewrite (stringify_spec _ _ _ Ht'). cbn [fst]. by rewrite Hres.
Qed.

Lemma chain_renders_fragments_witness :
  let calls := [(Id, "nav"); (Class, "a"); (Class, "b"); (PseudoElement, "x")] in
  let h' := [init; mkSelector "#nav.a.b" false true false 2;
             mkSelector "#nav.a.b::x" false true true 5] in
  fresh !! facade = Some init /\
  chain calls facade fresh = (Ret 2%nat, h') /\
  (stringify 2%nat h').1 = Ret "#nav.a.b::x".
Proof.
  intros calls h'.
  assert (chain calls facade fresh = (Ret 2%nat, h')) as Hrun by reflexivity.
  split; [reflexivity|]. split; [exact Hrun|].
  exact (chain_renders_fragments calls facade fresh init 2%nat h' eq_refl Hrun).
Defined.

(** ** Which sequences of calls return *)

Lemma seen_step k' k r value t :
  seen k' (set_index r (extend k value t)) = true <->
  seen k' t = true \/ (guarded k = true /\ k' = k).
Proof.
  destruct k, k'; cbn; split; intros H; auto;
    try (by destruct H as [H | [H1 H2]]); by right.
Qed.

Lemma well_formed_cons t k value kinds :
  well_formed t (k :: kinds) <->
  seen k t = false /\ index t <= rank k /\
  well_formed (set_index (rank k) (extend k value t)) kinds.
Proof.
  unfold well_formed. cbn [ordered_from index set_index].
  rewrite andb_true_iff, Z.leb_le, Forall_cons, filter_cons.
  assert (Forall (fun k' => seen k' (set_index (rank k) (extend k value t)) = false) kinds
          <-> Forall (fun k' => seen k' t = false) kinds /\
              (guarded k = true -> k ∉ kinds)) as ->.
  { rewrite !Forall_forall. split.
    - intros Hall. split.
      + intros k' Hk'. specialize (Hall k' Hk').
        destruct (seen k' t) eqn:Hs; [|done].
        assert (seen k' (set_index (rank k) (extend k value t)) = true)
          by (apply seen_step; by left).
        congruence.
      + intros Hg Hin. specialize (Hall k Hin).
        assert (seen k (set_index (rank k) (extend k value t)) = true)
          by (apply seen_step; by right).
        congruence.
    - intros [Hall Hnotin] k' Hk'.
      destruct (seen k' (set_index (rank k) (extend k value t))) eqn:Hs; [|done].
      apply seen_step in Hs as [Hs | [Hg ->]].
      + by rewrite (Hall k' Hk') in Hs.
      + by destruct (Hnotin Hg). }
  destruct (decide (guarded k = true)) as [Hg | Hg].
  - rewrite NoDup_cons, list_elem_of_filter. intuition.
  - intuition.
Qed.

(** X2: a sequence of calls begun on a selector returns exactly when it is
    well formed for that selector: the ranks of the calls start at the
    selector's rank or above and never go down, no [element], [id] or
    [pseudoElement] is called whose flag the selector has set, and none of
    these three is called twice.  Every other sequence throws. *)
Theorem chain_returns_iff_well_formed calls : forall this h t,
  h !! this = Some t ->
  (exists l h', chain calls this h = (Ret l, h')) <-> well_formed t calls.*1.
Proof.
  induction calls as [|[k v] calls IH]; intros this h t Ht.
  - split; [|by eauto]. intros _. repeat split; constructor.
  - cbn [fmap list_fmap fst]. rewrite (well_formed_cons _ _ v).
    cbn [chain]. unfold bind. rewrite (append_spec _ _ _ _ _ Ht).
    destruct (seen k t) eqn:Hs.
    { split; [by intros (? & ? & ?) | by intros [? _]]. }
    destruct (index t >? rank k) eqn:Hr.
    { apply Z.gtb_gt in Hr.
      split; [by intros (? & ? & ?) | intros (_ & ? & _); lia]. }
    rewrite Z.gtb_ltb in Hr. apply Z.ltb_ge in Hr.
    destruct (copies k).
    + rewrite (IH _ _ _ (lookup_snoc _ _)). intuition.
    + rewrite (IH _ _ _ (lookup_insert_same _ _ _ _ Ht)). intuition.
Qed.

Lemma chain_returns_iff_well_formed_witness :
  fresh !! facade = Some init /\
  ((exists l h', chain [(Element, "a"); (Class, "b"); (Class, "c")]
                   facade fresh = (Ret l, h')) <->
   well_formed init [Element; Class; Class]) /\
  ((exists l h', chain [(Class, "b"); (Id, "a")] facade fresh = (Ret l, h')) <->
   well_formed init [Class; Id]).
Proof.
  split; [reflexivity|]. split.
  - exact (chain_returns_iff_well_formed
             [(Element, "a"); (Class, "b"); (Class, "c")] facade fresh init eq_refl).
  - exact (chain_returns_iff_well_formed
             [(Class, "b"); (Id, "a")] facade fresh init eq_refl).
Defined.

(** ** Sequences that throw *)

(** X3: a sequence of calls that throws has a first call that throws: the
    calls before it returned, it threw the error of the sequence, the calls
    after it were not made, and what the calls before it wrote is still
    written: the store is the one they left, possibly with the private copy
    of the throwing call added. *)
Theorem chain_throws_at_first_refused_call calls : forall this h e h',
  chain calls this h = (Throw e, h') ->
  exists pre k v post l h1,
    calls = (pre ++ (k, v) :: post)%list /\
    chain pre this h = (Ret l, h1) /\
    append k l v h1 = (Throw e, h') /\
    forall l0 o, h1 !! l0 = Some o -> h' !! l0 = Some o.
Proof.
  induction calls as [|[k v] calls IH]; intros this h e h' Hrun.
  - discriminate Hrun.
  - cbn [chain] in Hrun. unfold bind in Hrun.
    destruct (append k this v h) as [[l1|e1] h1] eqn:Hstep.
    + destruct (IH _ _ _ _ Hrun)
        as (pre & k0 & v0 & post & l & h2 & -> & Hpre & Hbad & Hframe).
      exists ((k, v) :: pre), k0, v0, post, l, h2.
      split; [done|]. split; [|done].
      cbn [chain]. unfold bind. by rewrite Hstep.
    + injection Hrun as <- <-.
      exists [], k, v, calls, this, h. split; [done|]. split; [done|].
      split; [done|]. by destruct (append_throws _ _ _ _ _ _ Hstep).
Qed.

Lemma chain_throws_at_first_refused_call_witness :
  let calls := [(Class, "a"); (Id, "x"); (Class, "b")] in
  chain calls facade fresh
    = (Throw OrderError, [mkSelector ".a" false false false 2;
                          mkSelector ".a#x" false true false 2]) /\
  exists pre k v post l h1,
    calls = (pre ++ (k, v) :: post)%list /\
    chain pre facade fresh = (Ret l, h1) /\
    append k l v h1
      = (Throw OrderError, [mkSelector ".a" false false false 2;
                            mkSelector ".a#x" false true false 2]) /\
    forall l0 o, h1 !! l0 = Some o ->
      [mkSelector ".a" false false false 2;
       mkSelector ".a#x" false true false 2] !! l0 = Some o.
Proof.
  intros calls. split; [reflexivity|].
  exact (chain_throws_at_first_refused_call calls facade fresh _ _ eq_refl).
Defined.

(** ** What a sequence of calls leaves alone *)

Lemma append_frame k this value h l0 o :
  l0 <> this -> h !! l0 = Some o ->
  (append k this value h).2 !! l0 = Some o /\
  forall l, (append k this value h).1 = Ret l -> l = this \/ l = length h.
Proof.
  intros Hne Hl0.
  destruct (h !! this) as [t|] eqn:Ht.
  2: { rewrite (append_dangling _ _ _ _ Ht). by split. }
  rewrite (append_spec _ _ _ _ _ Ht).
  destruct (seen k t); [by split|].
  destruct (index t >? rank k), (copies k); cbn [fst snd];
    (split; [|intros l [= <-]; auto]); try done;
    first [by apply lookup_snoc_old | by rewrite list_lookup_insert_ne].
Qed.

(** X4: a sequence of calls, whether it returns or throws, changes no
    selector object that was there before other than the one it was begun
    on: what it writes, it writes to its receiver or to copies it made
    itself. *)
Theorem chain_changes_only_its_receiver calls : forall this h l0 o,
  l0 <> this -> h !! l0 = Some o ->
  (chain calls this h).2 !! l0 = Some o.
Proof.
  induction calls as [|[k v] calls IH]; intros this h l0 o Hne Hl0; [done|].
  cbn [chain]. unfold bind.
  destruct (append_frame k this v h l0 o Hne Hl0) as [Hkeep Hloc].
  destruct (append k this v h) as [[l1|e] h1]; [|done].
  apply IH; [|done].
  destruct (Hloc l1 eq_refl) as [-> | ->]; [done|].
  apply lookup_lt_Some in Hl0. lia.
Qed.

Lemma chain_changes_only_its_receiver_witness :
  let h := [init; mkSelector "div" true false false 0;
            mkSelector "p" true false false 0] in
  1%nat <> 2%nat /\
  h !! 1%nat = Some (mkSelector "div" true false false 0) /\
  (chain [(Class, "a"); (Id, "x")] 2%nat h).2 !! 1%nat
    = Some (mkSelector "div" true false false 0).
Proof.
  intros h.
  assert (1%nat <> 2%nat) as Hne by discriminate.
  split; [exact Hne|]. split; [reflexivity|].
  exact (chain_changes_only_its_receiver [(Class, "a"); (Id, "x")]
           2%nat h 1%nat _ Hne eq_refl).
Defined.

(** ** A rendered selector *)

(** X5: once rendered, a selector renders to the empty string, and it
    accepts a call of any kind whose flag it has not set, whatever its rank
    was before: the text is then the fragment of that call alone. *)
Theorem rendered_selector_starts_over k this value h t :
  h !! this = Some t ->
  ((_ <- stringify this ;; stringify this) h).1 = Ret EmptyString /\
  (seen k t = false ->
   ((_ <- stringify this ;; s <- append k this value ;; stringify s) h).1
     = Ret (fragment k value)).
Proof.
  intros Ht. unfold bind. rewrite (stringify_spec _ _ _ Ht).
  assert (<[this := rendered t]> h !! this = Some (rendered t)) as Hr
    by (by eapply lookup_insert_same).
  fold (rendered t). split.
  - by rewrite (stringify_spec _ _ _ Hr).
  - intros Hs. rewrite (append_spec _ _ _ _ _ Hr).
    assert (seen k (rendered t) = false) as -> by (by destruct k).
    assert ((index (rendered t) >? rank k) = false) as -> by (by destruct k).
    destruct (copies k).
    + by rewrite (stringify_spec _ _ _ (lookup_snoc _ _)).
    + by rewrite (stringify_spec _ _ _ (lookup_insert_same _ _ _ _ Hr)).
Qed.

Lemma rendered_selector_starts_over_witness :
  let h := [init; mkSelector "a:hover" true false false 4] in
  h !! 1%nat = Some (mkSelector "a:hover" true false false 4) /\
  seen Id (mkSelector "a:hover" true false false 4) = false /\
  ((_ <- stringify 1%nat ;; s <- append Id 1%nat "x" ;; stringify s) h).1
    = Ret "#x".
Proof.
  intros h. split; [reflexivity|]. split; [reflexivity|].
  exact (proj2 (rendered_selector_starts_over Id 1%nat "x" h _ eq_refl) eq_refl).
Defined.

(** ** More on combination *)

Lemma lookup_insert_is_Some (h : store) (l l0 : loc) (o : Selector) :
  is_Some (h !! l0) -> is_Some (<[l := o]> h !! l0).
Proof.
  intros H. apply lookup_lt_is_Some. rewrite length_insert.
  by apply lookup_lt_is_Some.
Qed.

(** One [combine], for any three references: the second argument is
    rendered in the store the rendering of the first has left, and the
    receiver is written last. *)
Lemma combine_run this A c B h a :
  h !! A = Some a -> is_Some (h !! B) -> is_Some (h !! this) ->
  exists b1 x',
    <[A := rendered a]> h !! B = Some b1 /\
    <[B := rendered b1]> (<[A := rendered a]> h) !! this = Some x' /\
    combine this A c B h =
      (Ret this,
       <[this := set_res (res a +:+ " " +:+ c +:+ " " +:+ res b1) x']>
         (<[B := rendered b1]> (<[A := rendered a]> h))).
Proof.
  intros Ha HB Hthis.
  destruct (lookup_insert_is_Some h A B (rendered a) HB) as [b1 Hb1].
  destruct (lookup_insert_is_Some _ B this (rendered b1)
              (lookup_insert_is_Some h A this (rendered a) Hthis)) as [x' Hx'].
  exists b1, x'. split; [done|]. split; [done|].
  unfold combine, bind. rewrite (stringify_spec _ _ _ Ha). fold (rendered a).
  rewrite (stringify_spec _ _ _ Hb1). fold (rendered b1).
  by rewrite (modify_ok _ _ _ _ Hx').
Qed.

(** X6: [combine] uses up its two arguments and writes one property of its
    receiver.  For two different selectors and a receiver that is neither,
    both arguments are afterwards as rendered, with empty text and rank -1,
    and of the receiver only the text has changed: its rank and its flags
    are what they were. *)
Theorem combine_consumes_its_arguments this A c B h a b x :
  h !! A = Some a -> h !! B = Some b -> h !! this = Some x ->
  A <> B -> this <> A -> this <> B ->
  exists h',
    combine this A c B h = (Ret this, h') /\
    h' !! A = Some (rendered a) /\ h' !! B = Some (rendered b) /\
    h' !! this = Some (set_res (res a +:+ " " +:+ c +:+ " " +:+ res b) x) /\
    (stringify A h').1 = Ret EmptyString /\
    (stringify B h').1 = Ret EmptyString.
Proof.
  intros Ha Hb Hx HAB HtA HtB.
  destruct (combine_run this A c B h a Ha (mk_is_Some _ _ Hb) (mk_is_Some _ _ Hx))
    as (b1 & x' & Hb1 & Hx' & Hrun).
  rewrite list_lookup_insert_ne in Hb1 by done.
  rewrite !list_lookup_insert_ne in Hx' by done.
  assert (b1 = b) as -> by congruence. assert (x' = x) as -> by congruence.
  eexists. split; [exact Hrun|].
  assert (forall y : Selector, <[this := y]> (<[B := rendered b]> (<[A := rendered a]> h)) !! A
                  = Some (rendered a)) as HA'.
  { intros y. rewrite !list_lookup_insert_ne by done.
    by eapply lookup_insert_same. }
  assert (forall y : Selector, <[this := y]> (<[B := rendered b]> (<[A := rendered a]> h)) !! B
                  = Some (rendered b)) as HB'.
  { intros y. rewrite list_lookup_insert_ne by done.
    eapply lookup_insert_same. by rewrite list_lookup_insert_ne. }
  split; [apply HA'|]. split; [apply HB'|]. split.
  - eapply lookup_insert_same. by rewrite !list_lookup_insert_ne.
  - by rewrite (stringify_spec _ _ _ (HA' _)), (stringify_spec _ _ _ (HB' _)).
Qed.

Lemma combine_consumes_its_arguments_witness :
  let h := [init; mkSelector "p" true false false 0;
            mkSelector "a:hover" true false false 4] in
  exists h',
    combine facade 1%nat "+" 2%nat h = (Ret facade, h') /\
    h' !! 1%nat = Some (mkSelector EmptyString true false false (-1)) /\
    h' !! 2%nat = Some (mkSelector EmptyString true false false (-1)) /\
    h' !! facade = Some (mkSelector "p + a:hover" false false false (-1)) /\
    (stringify 1%nat h').1 = Ret EmptyString /\
    (stringify 2%nat h').1 = Ret EmptyString.
Proof.
  intros h.
  exact (combine_consumes_its_arguments facade 1%nat "+" 2%nat h _ _ _
           eq_refl eq_refl eq_refl
           ltac:(discriminate) ltac:(discriminate) ltac:(discriminate)).
Defined.

(** X7: a combination can be the second argument of a combination made on
    the same receiver: for three different selectors [A], [B], [C], with
    [A] not the receiver,
    [combine(A, c1, combine(B, c2, C))] renders to the text of [A], [c1],
    the text of [B], [c2] and the text of [C], with one space around each
    combinator. *)
Theorem combine_nested_on_the_right this A c1 B c2 C h a b c :
  h !! A = Some a -> h !! B = Some b -> h !! C = Some c ->
  is_Some (h !! this) ->
  A <> B -> A <> C -> B <> C -> A <> this ->
  ((r <- combine this B c2 C ;; s <- combine this A c1 r ;; stringify s) h).1
  = Ret (res a +:+ " " +:+ c1 +:+ " " +:+
         res b +:+ " " +:+ c2 +:+ " " +:+ res c).
Proof.
  intros Ha Hb Hc Hthis HAB HAC HBC HAt.
  destruct (combine_run this B c2 C h b Hb (mk_is_Some _ _ Hc) Hthis)
    as (c' & x1 & Hc' & Hx1 & Hin).
  rewrite list_lookup_insert_ne in Hc' by done.
  assert (c' = c) as -> by congruence.
  unfold bind at 1. rewrite Hin.
  set (t1 := res b +:+ " " +:+ c2 +:+ " " +:+ res c) in *.
  set (h1 := <[this := set_res t1 x1]> _) in *.
  assert (h1 !! A = Some a) as Ha1
    by (unfold h1; by rewrite !list_lookup_insert_ne).
  assert (h1 !! this = Some (set_res t1 x1)) as Ht1
    by (unfold h1; by eapply lookup_insert_same).
  destruct (combine_run this A c1 this h1 a Ha1 (mk_is_Some _ _ Ht1)
              (mk_is_Some _ _ Ht1)) as (b1 & x2 & Hb1 & Hx2 & Hout).
  rewrite list_lookup_insert_ne in Hb1 by done.
  assert (b1 = set_res t1 x1) as -> by congruence.
  unfold bind. rewrite Hout.
  erewrite stringify_spec by (by eapply lookup_insert_same).
  reflexivity.
Qed.

Lemma combine_nested_on_the_right_witness :
  let h := [init; mkSelector "div" true false false 0;
            mkSelector "table" true false false 0;
            mkSelector "tr" true false false 0] in
  ((r <- combine facade 2%nat "~" 3%nat ;;
    s <- combine facade 1%nat "+" r ;; stringify s) h).1
  = Ret "div + table ~ tr".
Proof.
  intros h.
  exact (combine_nested_on_the_right facade 1%nat "+" 2%nat "~" 3%nat h _ _ _
           eq_refl eq_refl eq_refl (mk_is_Some _ _ eq_refl)
           ltac:(discriminate) ltac:(discriminate) ltac:(discriminate)
           ltac:(discriminate)).
Defined.

Lemma combine_returns_receiver this A c B h r h' :
  combine this A c B h = (Ret r, h') -> r = this.
Proof.
  unfold combine. intros Hrun.
  apply bind_returns in Hrun as (s1 & h1 & _ & Hrun).
  apply bind_returns in Hrun as (s2 & h2 & _ & Hrun).
  apply bind_returns in Hrun as (u & h3 & _ & Hrun).
  by injection Hrun as <- _.
Qed.

(** X8: [combine] returns its receiver, so a combination [r1] is the
    object it was made on, and a second combination made on that object
    overwrites its text.  Whatever the program does between the two: when
    the receiver, [C] and [D] are objects of the store, [C] and [D] are
    different and neither is the receiver,
    [combine(r1, c3, combine(C, c2, D))] renders to the second combination
    (the text [C] then holds, [c2], the text [D] then holds) where the
    first operand should be, then [c3], then nothing for the second
    operand. *)
Theorem combine_of_two_combinations this A c1 B h0 r1 h0' c2 C D c3 h c d :
  combine this A c1 B h0 = (Ret r1, h0') ->
  is_Some (h !! this) -> h !! C = Some c -> h !! D = Some d ->
  C <> D -> this <> C -> this <> D ->
  r1 = this /\
  ((r2 <- combine this C c2 D ;; s <- combine this r1 c3 r2 ;; stringify s) h).1
  = Ret ((res c +:+ " " +:+ c2 +:+ " " +:+ res d) +:+ " " +:+ c3 +:+ " ").
Proof.
  intros Hfirst Hthis Hc Hd HCD HtC HtD.
  apply combine_returns_receiver in Hfirst as ->. split; [done|].
  destruct (combine_run this C c2 D h c Hc (mk_is_Some _ _ Hd) Hthis)
    as (d' & x2 & Hd' & _ & Hsecond).
  rewrite list_lookup_insert_ne in Hd' by done.
  assert (d' = d) as -> by congruence.
  unfold bind at 1. rewrite Hsecond.
  set (t2 := res c +:+ " " +:+ c2 +:+ " " +:+ res d) in *.
  set (h2 := <[this := set_res t2 x2]> _) in *.
  assert (h2 !! this = Some (set_res t2 x2)) as Ht2.
  { unfold h2. apply list_lookup_insert_eq. rewrite !length_insert.
    by apply lookup_lt_is_Some. }
  destruct (combine_run this this c3 this h2 _ Ht2 (mk_is_Some _ _ Ht2)
              (mk_is_Some _ _ Ht2)) as (b3 & x3 & Hb3 & _ & Hout).
  rewrite (lookup_insert_same _ _ _ _ Ht2) in Hb3. injection Hb3 as <-.
  unfold bind. rewrite Hout.
  erewrite stringify_spec.
  2: { apply list_lookup_insert_eq. rewrite !length_insert.
       by eapply lookup_lt_Some. }
  reflexivity.
Qed.

(** The nested call as it is written,
    [combine(combine(element('a'), '+', element('b')), '>',
             combine(element('c'), '~', element('d')))]:
    the arguments are evaluated from left to right, so [element('c')] and
    [element('d')] copy the facade that holds the first combination. *)
Lemma combine_of_two_combinations_witness :
  let first : M loc :=
    a <- element facade "a" ;; b <- element facade "b" ;;
    combine facade a "+" b in
  let between : M (loc * loc) :=
    c <- element facade "c" ;; d <- element facade "d" ;; ret (c, d) in
  exists h0' h,
    first fresh = (Ret facade, h0') /\
    between h0' = (Ret (3%nat, 4%nat), h) /\
    h !! 3%nat = Some (mkSelector "a + bc" true false false 0) /\
    h !! 4%nat = Some (mkSelector "a + bd" true false false 0) /\
    ((r2 <- combine facade 3%nat "~" 4%nat ;;
      s <- combine facade facade ">" r2 ;; stringify s) h).1
    = Ret "a + bc ~ a + bd > ".
Proof.
  intros first between.
  exists (first fresh).2, (between (first fresh).2).2.
  split; [reflexivity|]. split; [reflexivity|].
  split; [reflexivity|]. split; [reflexivity|].
  refine (proj2 (combine_of_two_combinations facade 1%nat "+" 2%nat
                   (element facade "b" (element facade "a" fresh).2).2
                   facade (first fresh).2 "~" 3%nat 4%nat ">"
                   (between (first fresh).2).2 _ _
                   eq_refl (mk_is_Some _ _ eq_refl) eq_refl eq_refl _ _ _));
    discriminate.
Defined.

(** * Further properties of the JSON helpers *)

Lemma assoc_keys props :
  NoDup props.*1 -> (fun key => assoc key props) <$> props.*1 = props.*2.
Proof.
  induction props as [|[k v] props IH]; [done|].
  intros [Hnotin Hnodup]%NoDup_cons. cbn [fmap list_fmap fst snd assoc].
  rewrite String.eqb_refl. f_equal.
  rewrite <- (IH Hnodup). apply list_fmap_ext. intros i key Hkey.
  apply assoc_fresh. intros ->. apply Hnotin.
  by eapply list_elem_of_lookup_2.
Qed.

#[global] Instance index_key_inj : Inj eq eq index_key.
Proof.
  intros i j H. unfold index_key in H.
  assert (forall n, Nat.to_uint n <> Decimal.Nil) as Hnil.
  { intros n Hn. pose proof (DecimalNat.Unsigned.of_to n) as Hof.
    rewrite Hn in Hof. cbn in Hof. by subst n. }
  apply DecimalNat.Unsigned.to_uint_inj.
  pose proof (NilZero.usu _ (Hnil i)) as Hi.
  pose proof (NilZero.usu _ (Hnil j)) as Hj.
  rewrite H in Hi. congruence.
Qed.

(** The indexed values of an array or a string, read key by key, are its
    items in order. *)
Lemma keyed_values items :
  (fun key => assoc key (keyed items)) <$> (keyed items).*1 = items.
Proof.
  assert (length (index_key <$> seq 0 (length items)) = length items) as Hlen
    by (by rewrite length_fmap, length_seq).
  rewrite assoc_keys; unfold keyed.
  - by apply snd_zip; rewrite Hlen.
  - rewrite fst_zip by (by rewrite Hlen).
    apply (NoDup_fmap_2 _), NoDup_seq.
Qed.

(** X9: for a text that [JSON.parse] reads as an array, [fromJSON] calls
    the constructor with the items of the array, in their order; for a
    string, with its characters; for a number or a boolean, with no
    argument at all. *)
Theorem fromJSON_of_other_values JSON proto json v :
  JSON_parse JSON json = Some v ->
  (forall items, v = VArr items ->
     fromJSON JSON proto json = constructor proto items) /\
  (forall s, v = VStr s ->
     fromJSON JSON proto json = constructor proto (chars s)) /\
  ((exists n, v = VNum n) \/ (exists b, v = VBool b) ->
     fromJSON JSON proto json = constructor proto []).
Proof.
  intros Hparse. unfold fromJSON. rewrite Hparse. cbn [mbind option_bind].
  split; [|split].
  - intros items ->. unfold Object_keys, get. cbn.
    by rewrite keyed_values.
  - intros s ->. unfold Object_keys, get. cbn.
    by rewrite keyed_values.
  - by intros [[n ->] | [b ->]].
Qed.

Lemma fromJSON_of_other_values_witness :
  JSON_parse MiniJSON.JSON "[10,20]" = Some (VArr [VNum 10; VNum 20]) /\
  fromJSON MiniJSON.JSON Rectangle_prototype "[10,20]"
    = Some (Rectangle (VNum 10) (VNum 20)).
Proof.
  split; [reflexivity|].
  exact (proj1 (fromJSON_of_other_values MiniJSON.JSON Rectangle_prototype
                  "[10,20]" _ eq_refl) _ eq_refl).
Defined.



(** X11: the names of the fields play no part: two texts read as objects
    with the same values in the same order give the same result, whatever
    their fields are called. *)
Theorem fromJSON_ignores_field_names JSON proto json json' props props' :
  JSON_parse JSON json = Some (VObj props) ->
  JSON_parse JSON json' = Some (VObj props') ->
  NoDup props.*1 -> NoDup props'.*1 ->
  props.*2 = props'.*2 ->
  fromJSON JSON proto json = fromJSON JSON proto json' /\
  fromJSON JSON proto json = constructor proto props.*2.
Proof.
  intros Hp Hp' Hn Hn' Hvalues. unfold fromJSON. rewrite Hp, Hp'.
  unfold Object_keys, get. cbn.
  by rewrite !assoc_keys, Hvalues.
Qed.

Lemma fromJSON_ignores_field_names_witness :
  let json := "{" +:+ quote +:+ "width" +:+ quote +:+ ":3," +:+
              quote +:+ "height" +:+ quote +:+ ":4}" in
  let json' := "{" +:+ quote +:+ "a" +:+ quote +:+ ":3," +:+
               quote +:+ "b" +:+ quote +:+ ":4}" in
  fromJSON MiniJSON.JSON Rectangle_prototype json
    = fromJSON MiniJSON.JSON Rectangle_prototype json' /\
  fromJSON MiniJSON.JSON Rectangle_prototype json
    = Some (Rectangle (VNum 3) (VNum 4)).
Proof.
  intros json json'.
  refine (fromJSON_ignores_field_names MiniJSON.JSON Rectangle_prototype
            json json' [("width", VNum 3); ("height", VNum 4)]
            [("a", VNum 3); ("b", VNum 4)] eq_refl eq_refl _ _ eq_refl);
    refine (bool_decide_unpack _ _); vm_compute; exact I.
Defined.



(** * Further properties of the facade *)

(** X13: in two cases the facade is as the program started it once a
    selector begun on it has been rendered: when the selector was begun
    with [element], [id] or [pseudoElement], which copy the facade, and when
    it was made with [class], [attr] and [pseudoClass] alone, which write to
    the facade that is then rendered itself. *)
Theorem facade_as_new_after_render calls l h :
  (exists k v rest, calls = (k, v) :: rest /\ copies k = true) \/
  Forall (fun c => copies c.1 = false) calls ->
  chain calls facade fresh = (Ret l, h) ->
  (stringify l h).2 !! facade = Some init.
Proof.
  intros [(k & v & rest & -> & Hk) | Hall] Hrun.
  - cbn [chain] in Hrun.
    apply bind_returns in Hrun as (l1 & h1 & Hstep & Hrest).
    apply append_returns in Hstep as (t & _ & _ & _ & _ & Hshape).
    rewrite Hk in Hshape. destruct Hshape as [-> ->].
    assert (l <> facade /\ h !! facade = Some init) as [Hl Hf].
    { eapply chain_off_facade; [| |exact Hrest];
        [cbn; discriminate | reflexivity]. }
    destruct (h !! l) as [t'|] eqn:Ht.
    + rewrite (stringify_spec _ _ _ Ht). cbn [snd].
      by rewrite list_lookup_insert_ne.
    + unfold stringify, bind, load. by rewrite Ht.
  - by destruct (in_place_only_rearms _ _ _ _ Hall Hrun) as [_ ->].
Qed.

Lemma facade_as_new_after_render_witness :
  let h := [init; mkSelector "a" true false false 0;
            mkSelector "a#x" true true false 1] in
  chain [(Element, "a"); (Id, "x")] facade fresh = (Ret 2%nat, h) /\
  (stringify 2%nat h).2 !! facade = Some init.
Proof.
  intros h.
  assert (chain [(Element, "a"); (Id, "x")] facade fresh = (Ret 2%nat, h))
    as Hrun by reflexivity.
  split; [exact Hrun|].
  refine (facade_as_new_after_render _ 2%nat h _ Hrun).
  left. by exists Element, "a", [(Id, "x")].
Defined.

(** X14: [element], [id] and [pseudoElement] allow two selectors to be
    continued from one: called one after the other on the same receiver,
    each returns an object of its own that holds the receiver's text
    followed by its own fragment, and the receiver is as it was. *)
Theorem copying_calls_branch k1 k2 this v1 v2 h t :
  h !! this = Some t ->
  copies k1 = true -> copies k2 = true ->
  well_formed t [k1] -> well_formed t [k2] ->
  exists l1 l2 h' t1 t2,
    (s1 <- append k1 this v1 ;; s2 <- append k2 this v2 ;; ret (s1, s2)) h
      = (Ret (l1, l2), h') /\
    l1 <> l2 /\ l1 <> this /\ l2 <> this /\
    h' !! this = Some t /\
    h' !! l1 = Some t1 /\ res t1 = res t +:+ fragment k1 v1 /\
    h' !! l2 = Some t2 /\ res t2 = res t +:+ fragment k2 v2.
Proof.
  intros Ht Hc1 Hc2 Hw1 Hw2.
  apply (well_formed_cons _ _ v1) in Hw1 as (Hs1 & Hr1 & _).
  apply (well_formed_cons _ _ v2) in Hw2 as (Hs2 & Hr2 & _).
  assert (forall k, index t <= rank k -> (index t >? rank k) = false) as Hle
    by (intros k Hk; rewrite Z.gtb_ltb; apply Z.ltb_ge; lia).
  apply lookup_lt_Some in Ht as Hlt.
  unfold bind, ret.
  rewrite (append_spec _ _ _ _ _ Ht), Hs1, (Hle _ Hr1), Hc1.
  rewrite (append_spec _ _ _ _ t) by (by apply lookup_snoc_old).
  rewrite Hs2, (Hle _ Hr2), Hc2.
  do 5 eexists. split; [reflexivity|].
  rewrite length_app. cbn [length].
  split; [lia|]. split; [lia|]. split; [lia|].
  split; [by do 2 apply lookup_snoc_old|].
  split; [apply lookup_snoc_old, lookup_snoc|]. split; [reflexivity|].
  split.
  - replace (length h + 1)%nat
      with (length (h ++ [set_index (rank k1) (extend k1 v1 t)])%list)
      by (rewrite length_app; cbn; lia).
    apply lookup_snoc.
  - reflexivity.
Qed.

Lemma copying_calls_branch_witness :
  let h := [init; mkSelector "div" true false false 0] in
  exists l1 l2 h' t1 t2,
    (s1 <- append Id 1%nat "a" ;; s2 <- append PseudoElement 1%nat "b" ;;
     ret (s1, s2)) h = (Ret (l1, l2), h') /\
    l1 <> l2 /\ l1 <> 1%nat /\ l2 <> 1%nat /\
    h' !! 1%nat = Some (mkSelector "div" true false false 0) /\
    h' !! l1 = Some t1 /\ res t1 = "div#a" /\
    h' !! l2 = Some t2 /\ res t2 = "div::b".
Proof.
  intros h.
  refine (copying_calls_branch Id PseudoElement 1%nat "a" "b" h _
            eq_refl eq_refl eq_refl _ _);
    (split; [reflexivity|]; split; [by repeat constructor|]);
    refine (bool_decide_unpack _ _); vm_compute; exact I.
Defined.
